(** * kube-vip: the endpoint watcher of pkg/manager/watch_endpoints.go

    A shallow embedding of [watchEndpoint] and
    [updateServiceEndpointAnnotation].  The controller loop, the election
    goroutine it launches and the supervising goroutine are modelled as a
    labelled transition system whose labels say which goroutine moves next;
    every shared variable ([electionActive], the cancellation context, the
    wait group) lives in one state record.  A failing run-time operation of
    Go (index out of range, nil dereference, write to a nil map) is the
    [None] of the option monad. *)

From stdpp Require Import base option list gmap strings.
From Stdlib Require Import ZArith.

Local Open Scope string_scope.
Local Open Scope list_scope.
Local Open Scope stdpp_scope.
Local Open Scope nat_scope.

(** ** Data model (k8s.io/api/core/v1, as far as the code reads it) *)

(** [v1.EndpointAddress]: [NodeName] is a [*string], [None] is the nil pointer. *)
Record EndpointAddress := {
  IP : string;
  NodeName : option string
}.

Record EndpointSubset := {
  Addresses : list EndpointAddress
}.

Record Endpoints := {
  Subsets : list EndpointSubset
}.

(** [v1.Service]: [Annotations] is a Go map, [None] is the nil map. *)
Record Service := {
  Name : string;
  Namespace : string;
  Annotations : option (gmap string string)
}.

(** Reading a Go map: a missing key and the nil map both give the zero value. *)
Definition annotation_get (m : option (gmap string string)) (k : string) : string :=
  default "" (m ≫= (.!! k)).

(** Writing a Go map: assignment to an entry of the nil map panics. *)
Definition annotation_set (m : option (gmap string string)) (k v : string)
  : option (option (gmap string string)) :=
  match m with
  | None => None
  | Some g => Some (Some (<[k := v]> g))
  end.

(** ** The local endpoint scan (lines 75-86) *)

(** [for i := range xs { body }]: the indices [0 .. len-1], in order; a
    failing body aborts the loop. *)
Definition range_loop {S : Type} (n : nat) (body : nat → S → option S) (s : S)
  : option S :=
  foldl (λ acc i, acc ≫= body i) (Some s) (seq 0 n).

(** Dereferencing a pointer: nil panics. *)
Definition deref {A : Type} (p : option A) : option A := p.

Definition isNil {A : Type} (p : option A) : bool :=
  match p with None => true | Some _ => false end.

(** Lines 80-84, for one pair of indices. *)
Definition scanAddress (id : string) (ep : Endpoints) (subset address : nat)
    (localendpoints : list string) : option (list string) :=
  s ← Subsets ep !! subset;
  a ← Addresses s !! address;
  if negb (isNil (NodeName a)) then
    n ← deref (NodeName a);
    if String.eqb id n
    then Some (localendpoints ++ [IP a])
    else Some localendpoints
  else Some localendpoints.

(** Lines 77-85: the inner loop over one subset. *)
Definition scanSubset (id : string) (ep : Endpoints) (subset : nat)
    (localendpoints : list string) : option (list string) :=
  s ← Subsets ep !! subset;
  range_loop (length (Addresses s)) (scanAddress id ep subset) localendpoints.

(** Lines 75-86. *)
Definition localEndpoints (id : string) (ep : Endpoints) : option (list string) :=
  range_loop (length (Subsets ep)) (scanSubset id ep) [].

(** The resolver as the specification words it: every address entry of the
    snapshot, kept iff its hosting node is present and equals [nodeID], in
    the snapshot's order. *)
Definition hostedOn (nodeID : string) (a : EndpointAddress) : bool :=
  match NodeName a with
  | Some n => String.eqb nodeID n
  | None => false
  end.

Definition resolve (snapshot : Endpoints) (nodeID : string) : list string :=
  IP <$> filter (λ a, hostedOn nodeID a = true)
               (Subsets snapshot ≫= Addresses).

(** ** Watch events (k8s.io/apimachinery/pkg/watch) *)

Inductive EventType := Added | Modified | Deleted | Bookmark | Error.

(** The [runtime.Object] an event carries; its dynamic type decides the
    type assertion of line 69 (to a pointer to [v1.Endpoints]). *)
Inductive Object :=
  | EndpointsObject (ep : Endpoints)
  | StatusObject (message : string)
  | OtherObject.

Record Event := {
  EvType : EventType;
  EvObject : Object
}.

(** Line 69, the type assertion [ep, ok := ...]: [None] is [ok = false]. *)
Definition asEndpoints (o : Object) : option Endpoints :=
  match o with
  | EndpointsObject ep => Some ep
  | _ => None
  end.

Definition parseError : string :=
  "unable to parse Kubernetes services from API watcher".

(** ** Program points *)

(** The controller loop of [watchEndpoint]. *)
Inductive CtrlPc :=
  | AtRange                        (* line 64: blocked on the result channel *)
  | AtElectionCheck                (* line 114: about to read electionActive *)
  | Returned (err : option string) (* the function has returned err *)
  | Panicked.

(** The election goroutine of lines 115-132. *)
Inductive TaskPc :=
  | AtCtxErr          (* line 119: about to read endpointContext.Err() *)
  | AtSetActive       (* line 120 *)
  | AtStartElection   (* line 121: about to call StartServicesLeaderElection *)
  | InElection        (* line 121: inside the call *)
  | AtClearActive     (* line 122 *)
  | AtClearCancelled  (* line 127 *)
  | AtWgDone          (* line 131 *)
  | Exited.

(** [calls] and [stale] are history variables: how often this goroutine has
    called StartServicesLeaderElection, and whether the context was already
    cancelled when the goroutine was launched. *)
Record Task := {
  tpc : TaskPc;
  calls : nat;
  stale : bool
}.

(** The supervising goroutine of lines 42-59. *)
Inductive SupPc :=
  | AtSelect      (* line 43 *)
  | AfterRwStop   (* rw.Stop() done, cancel() pending *)
  | SupExited.

(** ** The state of one [watchEndpoint] call

    A context is named by a number; [endpointContext] is the variable of
    line 23 and [canceled] the contexts cancelled so far.  [seen] (the
    events taken from the channel) and [elections] (the context handed to
    each call of StartServicesLeaderElection) are history variables. *)
Record Sys := {
  pc : CtrlPc;
  lastKnownGoodEndpoint : string;
  electionActive : bool;
  endpointContext : nat;
  canceled : list nat;
  service : Service;
  wg : Z;
  ch : list Event;
  seen : list Event;
  exitFunction : bool;
  shutdownChan : bool;
  rwStopped : bool;
  sup : SupPc;
  tasks : list Task;
  elections : list nat
}.

Definition set_pc (v : CtrlPc) (s : Sys) : Sys :=
  {| pc := v; lastKnownGoodEndpoint := lastKnownGoodEndpoint s;
     electionActive := electionActive s; endpointContext := endpointContext s;
     canceled := canceled s; service := service s; wg := wg s; ch := ch s;
     seen := seen s; exitFunction := exitFunction s;
     shutdownChan := shutdownChan s; rwStopped := rwStopped s; sup := sup s;
     tasks := tasks s; elections := elections s |}.

Definition set_lastKnownGoodEndpoint (v : string) (s : Sys) : Sys :=
  {| pc := pc s; lastKnownGoodEndpoint := v;
     electionActive := electionActive s; endpointContext := endpointContext s;
     canceled := canceled s; service := service s; wg := wg s; ch := ch s;
     seen := seen s; exitFunction := exitFunction s;
     shutdownChan := shutdownChan s; rwStopped := rwStopped s; sup := sup s;
     tasks := tasks s; elections := elections s |}.

Definition set_electionActive (v : bool) (s : Sys) : Sys :=
  {| pc := pc s; lastKnownGoodEndpoint := lastKnownGoodEndpoint s;
     electionActive := v; endpointContext := endpointContext s;
     canceled := canceled s; service := service s; wg := wg s; ch := ch s;
     seen := seen s; exitFunction := exitFunction s;
     shutdownChan := shutdownChan s; rwStopped := rwStopped s; sup := sup s;
     tasks := tasks s; elections := elections s |}.

Definition set_canceled (v : list nat) (s : Sys) : Sys :=
  {| pc := pc s; lastKnownGoodEndpoint := lastKnownGoodEndpoint s;
     electionActive := electionActive s; endpointContext := endpointContext s;
     canceled := v; service := service s; wg := wg s; ch := ch s;
     seen := seen s; exitFunction := exitFunction s;
     shutdownChan := shutdownChan s; rwStopped := rwStopped s; sup := sup s;
     tasks := tasks s; elections := elections s |}.

Definition set_service (v : Service) (s : Sys) : Sys :=
  {| pc := pc s; lastKnownGoodEndpoint := lastKnownGoodEndpoint s;
     electionActive := electionActive s; endpointContext := endpointContext s;
     canceled := canceled s; service := v; wg := wg s; ch := ch s;
     seen := seen s; exitFunction := exitFunction s;
     shutdownChan := shutdownChan s; rwStopped := rwStopped s; sup := sup s;
     tasks := tasks s; elections := elections s |}.

Definition set_wg (v : Z) (s : Sys) : Sys :=
  {| pc := pc s; lastKnownGoodEndpoint := lastKnownGoodEndpoint s;
     electionActive := electionActive s; endpointContext := endpointContext s;
     canceled := canceled s; service := service s; wg := v; ch := ch s;
     seen := seen s; exitFunction := exitFunction s;
     shutdownChan := shutdownChan s; rwStopped := rwStopped s; sup := sup s;
     tasks := tasks s; elections := elections s |}.

(** Taking [event] off the channel whose remaining content is [rest]. *)
Definition set_ch (rest : list Event) (event : Event) (s : Sys) : Sys :=
  {| pc := pc s; lastKnownGoodEndpoint := lastKnownGoodEndpoint s;
     electionActive := electionActive s; endpointContext := endpointContext s;
     canceled := canceled s; service := service s; wg := wg s; ch := rest;
     seen := seen s ++ [event]; exitFunction := exitFunction s;
     shutdownChan := shutdownChan s; rwStopped := rwStopped s; sup := sup s;
     tasks := tasks s; elections := elections s |}.

Definition set_exitFunction (v : bool) (s : Sys) : Sys :=
  {| pc := pc s; lastKnownGoodEndpoint := lastKnownGoodEndpoint s;
     electionActive := electionActive s; endpointContext := endpointContext s;
     canceled := canceled s; service := service s; wg := wg s; ch := ch s;
     seen := seen s; exitFunction := v;
     shutdownChan := shutdownChan s; rwStopped := rwStopped s; sup := sup s;
     tasks := tasks s; elections := elections s |}.

Definition set_shutdownChan (v : bool) (s : Sys) : Sys :=
  {| pc := pc s; lastKnownGoodEndpoint := lastKnownGoodEndpoint s;
     electionActive := electionActive s; endpointContext := endpointContext s;
     canceled := canceled s; service := service s; wg := wg s; ch := ch s;
     seen := seen s; exitFunction := exitFunction s;
     shutdownChan := v; rwStopped := rwStopped s; sup := sup s;
     tasks := tasks s; elections := elections s |}.

Definition set_rwStopped (v : bool) (s : Sys) : Sys :=
  {| pc := pc s; lastKnownGoodEndpoint := lastKnownGoodEndpoint s;
     electionActive := electionActive s; endpointContext := endpointContext s;
     canceled := canceled s; service := service s; wg := wg s; ch := ch s;
     seen := seen s; exitFunction := exitFunction s;
     shutdownChan := shutdownChan s; rwStopped := v; sup := sup s;
     tasks := tasks s; elections := elections s |}.

Definition set_sup (v : SupPc) (s : Sys) : Sys :=
  {| pc := pc s; lastKnownGoodEndpoint := lastKnownGoodEndpoint s;
     electionActive := electionActive s; endpointContext := endpointContext s;
     canceled := canceled s; service := service s; wg := wg s; ch := ch s;
     seen := seen s; exitFunction := exitFunction s;
     shutdownChan := shutdownChan s; rwStopped := rwStopped s; sup := v;
     tasks := tasks s; elections := elections s |}.

Definition set_tasks (v : list Task) (s : Sys) : Sys :=
  {| pc := pc s; lastKnownGoodEndpoint := lastKnownGoodEndpoint s;
     electionActive := electionActive s; endpointContext := endpointContext s;
     canceled := canceled s; service := service s; wg := wg s; ch := ch s;
     seen := seen s; exitFunction := exitFunction s;
     shutdownChan := shutdownChan s; rwStopped := rwStopped s; sup := sup s;
     tasks := v; elections := elections s |}.

Definition set_elections (v : list nat) (s : Sys) : Sys :=
  {| pc := pc s; lastKnownGoodEndpoint := lastKnownGoodEndpoint s;
     electionActive := electionActive s; endpointContext := endpointContext s;
     canceled := canceled s; service := service s; wg := wg s; ch := ch s;
     seen := seen s; exitFunction := exitFunction s;
     shutdownChan := shutdownChan s; rwStopped := rwStopped s; sup := sup s;
     tasks := tasks s; elections := v |}.

(** ** The controller loop *)

(** [endpointContext.Err() == context.Canceled]. *)
Definition ctxCanceled (s : Sys) : bool :=
  bool_decide (endpointContext s ∈ canceled s).

(** [cancel()]: cancels the context of line 24; a second call is a no-op. *)
Definition cancel (s : Sys) : Sys :=
  if ctxCanceled s then s
  else set_canceled (endpointContext s :: canceled s) s.

(** [close(exitFunction)]: closing a closed channel panics. *)
Definition closeExitFunction (s : Sys) : option Sys :=
  if exitFunction s then None else Some (set_exitFunction true s).

(** [return err], with the deferred [cancel()] of line 26. *)
Definition returnWith (err : option string) (s : Sys) : Sys :=
  cancel (set_pc (Returned err) s).

(** Lines 102-106. *)
Definition stillExistsLoop (localendpoints : list string)
    (lastKnownGood : string) : option bool :=
  range_loop (length localendpoints)
    (λ x stillExists,
       e ← localendpoints !! x;
       Some (if String.eqb e lastKnownGood then true else stillExists))
    false.

(** Lines 97-99. *)
Definition stageActiveEndpoint (s : Sys) : option Sys :=
  let svc := service s in
  if String.eqb (annotation_get (Annotations svc) "kube-vip.io/egress") "true"
  then
    m ← annotation_set (Annotations svc) "kube-vip.io/active-endpoint"
                       (lastKnownGoodEndpoint s);
    Some (set_service {| Name := Name svc; Namespace := Namespace svc;
                         Annotations := m |} s)
  else Some s.

(** Lines 89-141: an Added or Modified event whose object is [ep]. *)
Definition onEndpoints (id : string) (ep : Endpoints) (s : Sys) : option Sys :=
  localendpoints ← localEndpoints id ep;
  if negb (Nat.eqb (length localendpoints) 0) then
    if String.eqb (lastKnownGoodEndpoint s) "" then
      first ← localendpoints !! 0;
      let s := set_lastKnownGoodEndpoint first s in
      let s := set_wg (wg s + 1)%Z s in
      s ← stageActiveEndpoint s;
      Some (set_pc AtElectionCheck s)
    else
      stillExists ← stillExistsLoop localendpoints (lastKnownGoodEndpoint s);
      if (stillExists : bool) then Some s
      else Some (set_pc AtElectionCheck (cancel s))
  else
    if negb (String.eqb (lastKnownGoodEndpoint s) "") then
      Some (cancel (set_lastKnownGoodEndpoint "" s))
    else Some s.

(** Lines 67-152: the body of the loop for one event; [None] is a panic. *)
Definition onEvent (id : string) (event : Event) (s : Sys) : option Sys :=
  match EvType event with
  | Added | Modified =>
      match asEndpoints (EvObject event) with
      | None => Some (returnWith (Some parseError) (cancel s))
      | Some ep => onEndpoints id ep s
      end
  | Deleted => s ← closeExitFunction s; Some (returnWith None s)
  | Error => Some s
  | Bookmark => Some s
  end.

(** Lines 154-156: the channel is closed and the loop ends. *)
Definition onChannelClosed (s : Sys) : option Sys :=
  s ← closeExitFunction s; Some (returnWith None s).

Definition newTask (s : Sys) : Task :=
  {| tpc := AtCtxErr; calls := 0; stale := ctxCanceled s |}.

(** Lines 114-133: launch the election goroutine unless the flag is set. *)
Definition onElectionCheck (s : Sys) : Sys :=
  set_pc AtRange
    (if negb (electionActive s)
     then set_tasks (tasks s ++ [newTask s]) s
     else s).

(** ** The election goroutine (lines 115-132), one step at a time *)

Definition at_pc (p : TaskPc) (t : Task) : Task :=
  {| tpc := p; calls := calls t; stale := stale t |}.

Definition taskStep (i : nat) (t : Task) (s : Sys) : option Sys :=
  let move p s := set_tasks (<[i := at_pc p t]> (tasks s)) s in
  match tpc t with
  | AtCtxErr =>
      Some (move (if ctxCanceled s then AtClearCancelled else AtSetActive) s)
  | AtSetActive => Some (move AtStartElection (set_electionActive true s))
  | AtStartElection =>
      Some (set_tasks
              (<[i := {| tpc := InElection; calls := S (calls t);
                         stale := stale t |}]> (tasks s))
              (set_elections (elections s ++ [endpointContext s]) s))
  | InElection => Some (move AtClearActive s)
  | AtClearActive => Some (move AtCtxErr (set_electionActive false s))
  | AtClearCancelled => Some (move AtWgDone (set_electionActive false s))
  | AtWgDone => Some (move Exited (set_wg (wg s - 1)%Z s))
  | Exited => None
  end.

(** ** The supervising goroutine (lines 42-59) *)

Definition supStep (s : Sys) : option Sys :=
  match sup s with
  | AtSelect =>
      if shutdownChan s || exitFunction s
      then Some (set_sup AfterRwStop (set_rwStopped true s))
      else None
  | AfterRwStop => Some (set_sup SupExited (cancel s))
  | SupExited => None
  end.

(** ** The transition system

    A label names the goroutine that moves.  [Recv] and [ChanClosed] are the
    two outcomes of [range ch]; the channel may be seen closed once the
    watcher is stopped or has delivered all it had.  [Shutdown] is the
    environment closing [sm.shutdownChan]. *)
Inductive Label :=
  | Recv
  | ChanClosed
  | ElectionCheck
  | TaskStep (i : nat)
  | SupStep
  | Shutdown.

Definition orPanic (s : Sys) (r : option Sys) : Sys :=
  default (set_pc Panicked s) r.

Definition step (id : string) (l : Label) (s : Sys) : option Sys :=
  match l with
  | Recv =>
      match pc s, ch s with
      | AtRange, event :: rest =>
          let s := set_ch rest event s in Some (orPanic s (onEvent id event s))
      | _, _ => None
      end
  | ChanClosed =>
      match pc s with
      | AtRange =>
          if rwStopped s || bool_decide (ch s = [])
          then Some (orPanic s (onChannelClosed s))
          else None
      | _ => None
      end
  | ElectionCheck =>
      match pc s with
      | AtElectionCheck => Some (onElectionCheck s)
      | _ => None
      end
  | TaskStep i => t ← tasks s !! i; taskStep i t s
  | SupStep => supStep s
  | Shutdown =>
      if shutdownChan s then None else Some (set_shutdownChan true s)
  end.

(** Running a schedule. *)
Fixpoint exec (id : string) (ls : list Label) (s : Sys) : option Sys :=
  match ls with
  | [] => Some s
  | l :: ls => s' ← step id l s; exec id ls s'
  end.

Inductive reachable (id : string) (s0 : Sys) : Sys → Prop :=
  | reachable_refl : reachable id s0 s0
  | reachable_step s l s' :
      reachable id s0 s → step id l s = Some s' → reachable id s0 s'.

(** Lines 19-63: the state in which the loop is entered, [events] being
    what the watcher will deliver. *)
Definition initial (svc : Service) (events : list Event) : Sys :=
  {| pc := AtRange; lastKnownGoodEndpoint := ""; electionActive := false;
     endpointContext := 0; canceled := []; service := svc; wg := 0%Z;
     ch := events; seen := []; exitFunction := false; shutdownChan := false;
     rwStopped := false; sup := AtSelect; tasks := []; elections := [] |}.

(** ** Observations on the election goroutines *)

Definition isLive (t : Task) : bool :=
  match tpc t with Exited => false | _ => true end.

Definition isElecting (t : Task) : bool :=
  match tpc t with InElection => true | _ => false end.

Definition liveTasks (s : Sys) : list Task := filter (λ t, isLive t = true) (tasks s).


(** ** The annotation update (lines 159-199) *)

Inductive APIError :=
  | ErrConflict (message : string)
  | ErrNotFound (message : string)
  | ErrOther (message : string).

(** [apierrors.IsConflict]. *)
Definition IsConflict (e : APIError) : bool :=
  match e with ErrConflict _ => true | _ => false end.

(** The requests the function sends to the API server. *)
Inductive Call :=
  | CallGet (namespace name : string)
  | CallUpdate (namespace : string) (obj : Service).

Definition isGet (c : Call) : bool :=
  match c with CallGet _ _ => true | _ => false end.

(** The API server is the environment: [GetReply n] and [UpdateReply n] are
    its answers to the requests of the [n]-th attempt. *)
Record APIServer := {
  GetReply : nat → string → string → Service + APIError;
  UpdateReply : nat → string → Service → option APIError
}.

(** [DeepCopy]: values are immutable here, the copy is the value. *)
Definition DeepCopy (svc : Service) : Service := svc.

Definition set_Annotations (m : option (gmap string string)) (svc : Service) : Service :=
  {| Name := Name svc; Namespace := Namespace svc; Annotations := m |}.

(** Lines 173-178: copy, make the map if it is nil, write the key. *)
Definition withActiveEndpoint (endpoint : string) (currentService : Service)
  : option Service :=
  let currentServiceCopy := DeepCopy currentService in
  let currentServiceCopy :=
    if isNil (Annotations currentServiceCopy)
    then set_Annotations (Some ∅) currentServiceCopy
    else currentServiceCopy in
  m ← annotation_set (Annotations currentServiceCopy)
                     "kube-vip.io/active-endpoint" endpoint;
  Some (set_Annotations m currentServiceCopy).

(** Lines 161-192, the closure handed to RetryOnConflict, at attempt [n]:
    the error it returns and the requests it sent; [None] is a panic. *)
Definition attempt (api : APIServer) (endpoint : string) (service : Service)
    (n : nat) : option (option APIError * list Call) :=
  let get := CallGet (Namespace service) (Name service) in
  match GetReply api n (Namespace service) (Name service) with
  | inr err => Some (Some err, [get])
  | inl currentService =>
      currentServiceCopy ← withActiveEndpoint endpoint currentService;
      let update := CallUpdate (Namespace currentService) currentServiceCopy in
      match UpdateReply api n (Namespace currentService) currentServiceCopy with
      | Some err => Some (Some err, [get; update])
      | None => Some (None, [get; update])
      end
  end.

(** Modelled from the spec: retry.RetryOnConflict and retry.DefaultRetry
    belong to k8s.io/client-go/util/retry and are not under src/.  The whole
    closure is run again after a conflict error, for at most [steps]
    attempts; exhausting them surfaces the last conflict error; any other
    outcome of an attempt is returned at once.  The delays between attempts
    are not modelled.  [n] is the number of the next attempt, [lastErr] the
    conflict error of the previous one, [sent] the requests sent so far. *)
Fixpoint RetryOnConflict (steps : nat) (fn : nat → option (option APIError * list Call))
    (n : nat) (lastErr : option APIError) (sent : list Call)
  : option (option APIError * list Call) :=
  match steps with
  | 0 => Some (lastErr, sent)
  | S steps =>
      r ← fn n;
      match r.1 with
      | None => Some (None, sent ++ r.2)
      | Some err =>
          if IsConflict err
          then RetryOnConflict steps fn (S n) (Some err) (sent ++ r.2)
          else Some (Some err, sent ++ r.2)
      end
  end.

(** Lines 159-199; [DefaultRetry] is the number of attempts of the default
    policy. *)
Definition updateServiceEndpointAnnotation (DefaultRetry : nat) (api : APIServer)
    (endpoint : string) (service : Service) : option (option APIError * list Call) :=
  retryErr ← RetryOnConflict DefaultRetry (attempt api endpoint service) 0 None [];
  match retryErr.1 with
  | Some err => Some (Some err, retryErr.2)
  | None => Some (None, retryErr.2)
  end.

(** The error returned by attempt [n], when it does not panic. *)
Definition outcome (api : APIServer) (endpoint : string) (service : Service)
    (n : nat) : option (option APIError) :=
  fst <$> attempt api endpoint service n.

Definition isConflictOutcome (o : option (option APIError)) : bool :=
  match o with
  | Some (Some err) => IsConflict err
  | _ => false
  end.

(** ** Auxiliary definitions for the proofs *)

(** One address, and one subset, folded into the result: the loop bodies
    once the index reads have been resolved. *)
Definition keepLocal (id : string) (a : EndpointAddress) (acc : list string)
  : option (list string) :=
  Some (if hostedOn id a then acc ++ [IP a] else acc).

Definition keepSubset (id : string) (s : EndpointSubset) (acc : list string)
  : option (list string) :=
  Some (acc ++ (IP <$> filter (λ a, hostedOn id a = true) (Addresses s))).

(** What lines 97-99 leave behind (see [stageActiveEndpoint_spec]). *)
Definition staged (s : Sys) : Sys :=
  if String.eqb (annotation_get (Annotations (service s)) "kube-vip.io/egress") "true"
  then set_service
         (set_Annotations
            (Some (<["kube-vip.io/active-endpoint" := lastKnownGoodEndpoint s]>
                     (default ∅ (Annotations (service s)))))
            (service s)) s
  else s.

(** The outcomes of the loop body for one event, each with the condition
    under which the code takes it ([onEvent_outcome] proves the list
    complete). *)
Inductive Outcome (id : string) (event : Event) (s : Sys) : option Sys → Prop :=
  | out_logged :
      EvType event = Error ∨ EvType event = Bookmark →
      Outcome id event s (Some s)
  | out_deleted :
      EvType event = Deleted →
      Outcome id event s (s ← closeExitFunction s; Some (returnWith None s))
  | out_undecodable :
      EvType event = Added ∨ EvType event = Modified →
      asEndpoints (EvObject event) = None →
      Outcome id event s (Some (returnWith (Some parseError) (cancel s)))
  | out_idle ep :
      EvType event = Added ∨ EvType event = Modified →
      EvObject event = EndpointsObject ep →
      resolve ep id = [] → lastKnownGoodEndpoint s = "" →
      Outcome id event s (Some s)
  | out_emptied ep :
      EvType event = Added ∨ EvType event = Modified →
      EvObject event = EndpointsObject ep →
      resolve ep id = [] → lastKnownGoodEndpoint s ≠ "" →
      Outcome id event s (Some (cancel (set_lastKnownGoodEndpoint "" s)))
  | out_first ep first rest :
      EvType event = Added ∨ EvType event = Modified →
      EvObject event = EndpointsObject ep →
      resolve ep id = first :: rest → lastKnownGoodEndpoint s = "" →
      Outcome id event s
        (Some (set_pc AtElectionCheck
                 (staged (set_wg (wg s + 1)%Z (set_lastKnownGoodEndpoint first s)))))
  | out_still ep :
      EvType event = Added ∨ EvType event = Modified →
      EvObject event = EndpointsObject ep →
      resolve ep id ≠ [] → lastKnownGoodEndpoint s ≠ "" →
      lastKnownGoodEndpoint s ∈ resolve ep id →
      Outcome id event s (Some s)
  | out_lost ep :
      EvType event = Added ∨ EvType event = Modified →
      EvObject event = EndpointsObject ep →
      resolve ep id ≠ [] → lastKnownGoodEndpoint s ≠ "" →
      lastKnownGoodEndpoint s ∉ resolve ep id →
      Outcome id event s (Some (set_pc AtElectionCheck (cancel s))).



(** What every reachable state satisfies: [exitFunction] is closed only by
    a returning controller, the loop never panics, the supervisor stops the
    watcher before anything else, a returned controller has cancelled the
    context, an error is returned only for an Added or Modified event that
    is not an endpoint snapshot, and [endpointContext] is the context of
    line 24 throughout. *)
Record wf (s : Sys) : Prop := {
  wf_exit : exitFunction s = true → ∃ e, pc s = Returned e;
  wf_nopanic : pc s ≠ Panicked;
  wf_sup : sup s ≠ AtSelect → rwStopped s = true;
  wf_returned : ∀ e, pc s = Returned e → ctxCanceled s = true;
  wf_error : ∀ err, pc s = Returned (Some err) →
    err = parseError ∧
    ∃ pre event, seen s = pre ++ [event] ∧
      (EvType event = Added ∨ EvType event = Modified) ∧
      asEndpoints (EvObject event) = None;
  wf_ctx : endpointContext s = 0;
  wf_elections : Forall (λ c, c = 0) (elections s)
}.

(** Program points from which the goroutine leaves without calling
    StartServicesLeaderElection, provided the context is cancelled. *)
Definition leaving (t : Task) : bool :=
  match tpc t with
  | AtCtxErr | AtClearCancelled | AtWgDone | Exited => true
  | _ => false
  end.

(** A goroutine launched under a cancelled context has made no call and is
    on its way out. *)
Definition staleIdle (s : Sys) (t : Task) : Prop :=
  stale t = true → ctxCanceled s = true ∧ calls t = 0 ∧ leaving t = true.

(** The requests of attempt [n]. *)
Definition requests (api : APIServer) (endpoint : string) (service : Service)
    (n : nat) : list Call :=
  default [] (snd <$> attempt api endpoint service n).

(** ** Concrete inputs: the scenarios of the specification's section 8 *)

Definition address (ip node : string) : EndpointAddress :=
  {| IP := ip; NodeName := Some node |}.

Definition snapshotEventOf (t : EventType) (l : list EndpointAddress) : Event :=
  {| EvType := t; EvObject := EndpointsObject {| Subsets := [{| Addresses := l |}] |} |}.

(** Scenario A: one address hosted on node-1. *)
Definition scenarioA : Event :=
  snapshotEventOf Added [address "10.0.0.5" "node-1"].


(** Scenario C: no address on node-1. *)
Definition scenarioC : Event :=
  snapshotEventOf Modified [address "10.0.0.9" "node-2"].

(** The local endpoint has moved: node-1 hosts another address. *)
Definition scenarioMoved : Event :=
  snapshotEventOf Modified [address "10.0.0.6" "node-1"].


(** An Added event whose object is not an endpoint snapshot. *)
Definition scenarioMalformed : Event :=
  {| EvType := Added; EvObject := StatusObject "Failure" |}.

Definition plainService : Service :=
  {| Name := "web"; Namespace := "default"; Annotations := None |}.

Definition egressService : Service :=
  {| Name := "web"; Namespace := "default";
     Annotations := Some {["kube-vip.io/egress" := "true"]} |}.

(** An API server on which the first two updates conflict (scenario E). *)
Definition conflictingTwice : APIServer :=
  {| GetReply := λ _ _ _, inl plainService;
     UpdateReply := λ n _ _,
       if n <? 2 then Some (ErrConflict "the object has been modified") else None |}.


(** An API server that stores a service without annotations and accepts
    every update. *)
Definition acceptingServer : APIServer :=
  {| GetReply := λ _ _ _, inl plainService;
     UpdateReply := λ _ _ _, None |}.

(** How the supervisor and the channels it selects on hang together:
    [exitFunction] is closed by the returns with nil and by nothing else,
    the supervisor leaves its select only on one of the two signals, and
    only the supervisor stops the watcher. *)
Record supervised (s : Sys) : Prop := {
  sv_nil : pc s = Returned None → exitFunction s = true;
  sv_err : ∀ err, pc s = Returned (Some err) → exitFunction s = false;
  sv_signal : sup s ≠ AtSelect → shutdownChan s = true ∨ exitFunction s = true;
  sv_stop : rwStopped s = true → sup s ≠ AtSelect
}.



(** ** Facts about the scan *)

Lemma range_loop_snoc {S : Type} n (body : nat → S → option S) s :
  range_loop (Datatypes.S n) body s = range_loop n body s ≫= body n.
Proof.
  unfold range_loop. rewrite seq_S, foldl_app. reflexivity.
Qed.

Lemma range_loop_ext {S : Type} n (f g : nat → S → option S) s :
  (∀ i s', i < n → f i s' = g i s') →
  range_loop n f s = range_loop n g s.
Proof.
  induction n as [|n IH]; intros Hfg; [reflexivity|].
  rewrite !range_loop_snoc, IH by (intros; apply Hfg; lia).
  destruct (range_loop n g s); simpl; [apply Hfg; lia | reflexivity].
Qed.

(** An index loop that only reads [l !! i] is a fold over the elements. *)
Lemma range_loop_elements {A S : Type} (l : list A)
    (body : nat → S → option S) (f : A → S → option S) s :
  (∀ i a s', l !! i = Some a → body i s' = f a s') →
  range_loop (length l) body s = foldl (λ acc a, acc ≫= f a) (Some s) l.
Proof.
  revert body. induction l as [|x l IH] using rev_ind; intros body Hb.
  - reflexivity.
  - rewrite length_app, Nat.add_1_r, range_loop_snoc, foldl_app. simpl.
    rewrite (IH body).
    + destruct (foldl _ _ l); simpl; [|reflexivity].
      apply Hb. rewrite lookup_app_r, Nat.sub_diag by lia. reflexivity.
    + intros i a s' Hi. apply Hb. rewrite lookup_app_l; [done|].
      by eapply lookup_lt_Some.
Qed.

Lemma scanAddress_keepLocal id ep subset s address a acc :
  Subsets ep !! subset = Some s →
  Addresses s !! address = Some a →
  scanAddress id ep subset address acc = keepLocal id a acc.
Proof.
  intros Hs Ha. unfold scanAddress, keepLocal, hostedOn, deref.
  rewrite Hs; simpl. rewrite Ha; simpl.
  destruct (NodeName a) as [n|]; simpl; [|reflexivity].
  destruct (String.eqb id n); reflexivity.
Qed.

Lemma keepLocal_fold id (l : list EndpointAddress) acc :
  foldl (λ r a, r ≫= keepLocal id a) (Some acc) l
  = Some (acc ++ (IP <$> filter (λ a, hostedOn id a = true) l)).
Proof.
  revert acc. induction l as [|a l IH]; intros acc; simpl.
  - by rewrite app_nil_r.
  - unfold keepLocal at 2. rewrite filter_cons.
    destruct (decide (hostedOn id a = true)) as [E|E].
    + rewrite E, IH, fmap_cons, <- app_assoc. done.
    + apply not_true_is_false in E. rewrite E. apply IH.
Qed.

Lemma scanSubset_spec id ep subset s acc :
  Subsets ep !! subset = Some s →
  scanSubset id ep subset acc
  = Some (acc ++ (IP <$> filter (λ a, hostedOn id a = true) (Addresses s))).
Proof.
  intros Hs. unfold scanSubset. rewrite Hs; simpl.
  rewrite (range_loop_elements (Addresses s) _ (keepLocal id)).
  - apply keepLocal_fold.
  - intros i a s' Hi. by eapply scanAddress_keepLocal.
Qed.

Lemma keepSubset_fold id (l : list EndpointSubset) acc :
  foldl (λ r s, r ≫= keepSubset id s) (Some acc) l
  = Some (acc ++ (IP <$> filter (λ a, hostedOn id a = true) (l ≫= Addresses))).
Proof.
  revert acc. induction l as [|s l IH]; intros acc; simpl.
  - by rewrite app_nil_r.
  - unfold keepSubset at 2. rewrite IH, filter_app, fmap_app, app_assoc. done.
Qed.

Lemma localEndpoints_resolve id ep :
  localEndpoints id ep = Some (resolve ep id).
Proof.
  unfold localEndpoints, resolve.
  rewrite (range_loop_elements (Subsets ep) _ (keepSubset id)).
  - apply keepSubset_fold.
  - intros i s acc Hi. by apply scanSubset_spec.
Qed.


(** ** Facts about one event *)

Lemma stillExistsLoop_spec (localendpoints : list string) lastKnownGood :
  stillExistsLoop localendpoints lastKnownGood
  = Some (bool_decide (lastKnownGood ∈ localendpoints)).
Proof.
  unfold stillExistsLoop.
  rewrite (range_loop_elements localendpoints _
             (λ e b, Some (if String.eqb e lastKnownGood then true else b))).
  - assert (H : ∀ (l : list string) b,
        foldl (λ acc e, acc ≫= λ b, Some (if String.eqb e lastKnownGood then true else b))
              (Some b) l
        = Some (b || bool_decide (lastKnownGood ∈ l))).
    { induction l as [|e l IH]; intros b; simpl.
      - by rewrite orb_false_r.
      - rewrite IH. f_equal. destruct (String.eqb_spec e lastKnownGood) as [->|Hne].
        + rewrite (bool_decide_eq_true_2 (lastKnownGood ∈ lastKnownGood :: l))
            by apply list_elem_of_here.
          by rewrite orb_true_r.
        + destruct b; [done|]. simpl. apply bool_decide_ext.
          rewrite elem_of_cons. intuition congruence. }
    apply H.
  - intros i a b Hi. by rewrite Hi.
Qed.

Lemma annotation_get_true_Some m k :
  annotation_get m k = "true" → ∃ g, m = Some g.
Proof. destruct m; [eauto | discriminate]. Qed.

(** Lines 97-99 never write to a nil map: the guard reads the same map. *)
Lemma stageActiveEndpoint_spec s : stageActiveEndpoint s = Some (staged s).
Proof.
  unfold stageActiveEndpoint, staged.
  destruct (String.eqb_spec (annotation_get (Annotations (service s)) "kube-vip.io/egress") "true")
    as [E|E]; [|done].
  destruct (annotation_get_true_Some _ _ E) as [g ->]. reflexivity.
Qed.

(** The three branches of lines 89-141, by the resolved local addresses. *)
Lemma onEndpoints_empty id ep s :
  resolve ep id = [] →
  onEndpoints id ep s
  = Some (if String.eqb (lastKnownGoodEndpoint s) ""
          then s else cancel (set_lastKnownGoodEndpoint "" s)).
Proof.
  intros E. unfold onEndpoints. rewrite localEndpoints_resolve, E. simpl.
  by destruct (String.eqb _ _).
Qed.

Lemma onEndpoints_first id ep s first rest :
  resolve ep id = first :: rest →
  lastKnownGoodEndpoint s = "" →
  onEndpoints id ep s
  = Some (set_pc AtElectionCheck
            (staged (set_wg (wg s + 1)%Z (set_lastKnownGoodEndpoint first s)))).
Proof.
  intros E Hlk. unfold onEndpoints. rewrite localEndpoints_resolve, E. simpl.
  rewrite Hlk. simpl. rewrite stageActiveEndpoint_spec. reflexivity.
Qed.

Lemma onEndpoints_tracked id ep s :
  resolve ep id ≠ [] →
  lastKnownGoodEndpoint s ≠ "" →
  onEndpoints id ep s
  = Some (if bool_decide (lastKnownGoodEndpoint s ∈ resolve ep id)
          then s else set_pc AtElectionCheck (cancel s)).
Proof.
  intros E Hlk. unfold onEndpoints. rewrite localEndpoints_resolve. simpl.
  destruct (resolve ep id) as [|a l] eqn:R; [done|]. simpl.
  apply String.eqb_neq in Hlk. rewrite Hlk.
  rewrite stillExistsLoop_spec. simpl. by destruct (bool_decide _).
Qed.

Lemma ctxCanceled_cancel s : ctxCanceled (cancel s) = true.
Proof.
  unfold cancel. destruct (ctxCanceled s) eqn:E; [done|].
  unfold ctxCanceled. simpl. apply bool_decide_eq_true_2, list_elem_of_here.
Qed.

Lemma cancel_frame s :
  pc (cancel s) = pc s ∧ sup (cancel s) = sup s ∧
  exitFunction (cancel s) = exitFunction s ∧
  shutdownChan (cancel s) = shutdownChan s ∧
  rwStopped (cancel s) = rwStopped s ∧ tasks (cancel s) = tasks s ∧
  lastKnownGoodEndpoint (cancel s) = lastKnownGoodEndpoint s.
Proof. unfold cancel. by destruct (ctxCanceled s). Qed.

Lemma onEvent_snapshot id event ep s :
  EvType event = Added ∨ EvType event = Modified →
  EvObject event = EndpointsObject ep →
  onEvent id event s = onEndpoints id ep s.
Proof. intros [Ht|Ht] Ho; unfold onEvent; by rewrite Ht, Ho. Qed.

Lemma onEndpoints_outcome id event ep s :
  EvType event = Added ∨ EvType event = Modified →
  EvObject event = EndpointsObject ep →
  Outcome id event s (onEndpoints id ep s).
Proof.
  intros Ht Ho.
  destruct (resolve ep id) as [|first rest] eqn:R;
    destruct (decide (lastKnownGoodEndpoint s = "")) as [E|E].
  - rewrite onEndpoints_empty, E by done. by eapply out_idle.
  - rewrite onEndpoints_empty by done.
    apply String.eqb_neq in E as E'. rewrite E'. by eapply out_emptied.
  - erewrite onEndpoints_first by done. by eapply out_first.
  - rewrite onEndpoints_tracked by (done || by rewrite R).
    case_bool_decide.
    + eapply out_still; eauto. by rewrite R.
    + eapply out_lost; eauto. by rewrite R.
Qed.

Lemma onEvent_outcome id event s : Outcome id event s (onEvent id event s).
Proof.
  unfold onEvent. destruct (EvType event) eqn:Ht.
  - destruct (EvObject event) as [ep| |] eqn:Ho; simpl.
    + apply onEndpoints_outcome; auto.
    + apply out_undecodable; [auto | by rewrite Ho].
    + apply out_undecodable; [auto | by rewrite Ho].
  - destruct (EvObject event) as [ep| |] eqn:Ho; simpl.
    + apply onEndpoints_outcome; auto.
    + apply out_undecodable; [auto | by rewrite Ho].
    + apply out_undecodable; [auto | by rewrite Ho].
  - by apply out_deleted.
  - apply out_logged; auto.
  - apply out_logged; auto.
Qed.

Lemma step_cases id l s s' :
  step id l s = Some s' →
  (∃ event rest, l = Recv ∧ pc s = AtRange ∧ ch s = event :: rest ∧
     s' = orPanic (set_ch rest event s) (onEvent id event (set_ch rest event s)))
  ∨ (l = ChanClosed ∧ pc s = AtRange ∧ (rwStopped s = true ∨ ch s = []) ∧
     s' = orPanic s (onChannelClosed s))
  ∨ (l = ElectionCheck ∧ pc s = AtElectionCheck ∧ s' = onElectionCheck s)
  ∨ (∃ i t, l = TaskStep i ∧ tasks s !! i = Some t ∧ taskStep i t s = Some s')
  ∨ (l = SupStep ∧ supStep s = Some s')
  ∨ (l = Shutdown ∧ shutdownChan s = false ∧ s' = set_shutdownChan true s).
Proof.
  destruct l; simpl; intros H.
  - left. destruct (pc s) eqn:Hpc; try discriminate.
    destruct (ch s) as [|event rest] eqn:Hch; [discriminate|].
    injection H as <-. eauto 10.
  - right; left. destruct (pc s) eqn:Hpc; try discriminate.
    destruct (rwStopped s || bool_decide (ch s = [])) eqn:E; [|discriminate].
    injection H as <-. split; [done|]. split; [done|]. split; [|done].
    apply orb_true_iff in E as [E|E]; [by left | right].
    by apply bool_decide_eq_true_1 in E.
  - do 2 right; left. destruct (pc s) eqn:Hpc; try discriminate.
    by injection H as <-.
  - do 3 right; left. destruct (tasks s !! i) as [t|] eqn:Ht; [|discriminate].
    eauto.
  - do 4 right; left. done.
  - do 5 right. destruct (shutdownChan s) eqn:E; [discriminate|].
    by injection H as <-.
Qed.

(** ** Invariants of the transition system *)

Ltac sys_unfold :=
  unfold orPanic, onChannelClosed, closeExitFunction, returnWith, staged,
    onElectionCheck, supStep, taskStep, at_pc, newTask, cancel, ctxCanceled in *.

Ltac sys_simpl :=
  sys_unfold; simpl in *;
  repeat (case_match; simpl in *; simplify_eq/=).

Ltac exit_contra :=
  match goal with
  | W : exitFunction ?s = true → ∃ e, pc ?s = Returned e,
    H : exitFunction ?s = true |- _ =>
      let e := fresh in destruct (W H) as [e ?]; congruence
  | W : true = true → ∃ e, pc ?s = Returned e |- _ =>
      let e := fresh in destruct (W eq_refl) as [e ?]; congruence
  end.

Ltac sys_done :=
  first
    [ done
    | congruence
    | exit_contra
    | by eauto
    | by (apply bool_decide_eq_true_2; apply list_elem_of_here)
    | by (intros; exit_contra)
    | by (intros; apply bool_decide_eq_true_2; apply list_elem_of_here)
    | by (intros; simplify_eq; eauto 10) ].

Ltac step_inv H :=
  let event := fresh "event" in
  let rest := fresh "rest" in
  let i := fresh "i" in
  let t := fresh "t" in
  let Hpc := fresh "Hpc" in
  let Hch := fresh "Hch" in
  let Hi := fresh "Hi" in
  let Ht := fresh "Ht" in
  apply step_cases in H
    as [(event & rest & -> & Hpc & Hch & ->)
       |[(-> & Hpc & Hch & ->)
       |[(-> & Hpc & ->)
       |[(i & t & -> & Hi & Ht)
       |[(-> & Ht)
       |(-> & Ht & ->)]]]]].

Lemma reachable_trans id s0 s1 s2 :
  reachable id s0 s1 → reachable id s1 s2 → reachable id s0 s2.
Proof. induction 2; [done | by eapply reachable_step]. Qed.

Lemma exec_reachable id ls s s' : exec id ls s = Some s' → reachable id s s'.
Proof.
  intros H. cut (∀ s0, reachable id s0 s → reachable id s0 s').
  { intros C. apply C. constructor. }
  revert s H. induction ls as [|l ls IH]; simpl; intros s H s0 Hr.
  - by injection H as <-.
  - destruct (step id l s) as [s1|] eqn:E; [|discriminate]. simpl in H.
    eapply IH; [done|]. by eapply reachable_step.
Qed.

Lemma wf_initial svc events : wf (initial svc events).
Proof. split; simpl; try done. Qed.

Lemma wf_step id l s s' : wf s → step id l s = Some s' → wf s'.
Proof.
  intros [W1 W2 W3 W4 W5 W6 W7] Hs. step_inv Hs.
  - destruct (onEvent_outcome id event (set_ch rest event s)); sys_simpl;
      try exit_contra; split; simpl; sys_done.
  - sys_simpl; try exit_contra; split; simpl; sys_done.
  - sys_simpl; split; simpl; sys_done.
  - sys_simpl; split; simpl; try sys_done.
    all: apply Forall_app; split; [done|]; by apply Forall_singleton.
  - sys_simpl; split; simpl; sys_done.
  - split; simpl; sys_done.
Qed.

Lemma wf_reachable id svc events s :
  reachable id (initial svc events) s → wf s.
Proof.
  induction 1; [apply wf_initial | by eapply wf_step].
Qed.

(** Once the controller has returned it takes no further step: no event is
    taken from the channel and no goroutine is launched. *)
Lemma returned_step id l s s' e :
  pc s = Returned e → step id l s = Some s' →
  pc s' = Returned e ∧ ch s' = ch s ∧ seen s' = seen s ∧
  lastKnownGoodEndpoint s' = lastKnownGoodEndpoint s ∧
  length (tasks s') = length (tasks s).
Proof.
  intros Hp Hs. step_inv Hs; try congruence.
  - sys_simpl; by rewrite ?length_insert.
  - sys_simpl; done.
  - done.
Qed.

Lemma returned_reachable id s s' e :
  pc s = Returned e → reachable id s s' →
  pc s' = Returned e ∧ ch s' = ch s ∧ seen s' = seen s ∧
  lastKnownGoodEndpoint s' = lastKnownGoodEndpoint s ∧
  length (tasks s') = length (tasks s).
Proof.
  intros Hp. induction 1 as [|s1 l s2 Hr IH Hs]; [done|].
  destruct IH as (IH1 & IH2 & IH3 & IH4 & IH5).
  destruct (returned_step _ _ _ _ _ IH1 Hs) as (? & ? & ? & ? & ?).
  repeat split; congruence.
Qed.

(** Cancellation is permanent, and the context variable is never assigned. *)
Lemma canceled_step id l s s' :
  pc s ≠ Panicked → (exitFunction s = true → ∃ e, pc s = Returned e) →
  step id l s = Some s' →
  endpointContext s' = endpointContext s ∧
  (ctxCanceled s = true → ctxCanceled s' = true).
Proof.
  intros Hn Hx Hs. step_inv Hs.
  - destruct (onEvent_outcome id event (set_ch rest event s)); sys_simpl;
      try exit_contra; split; sys_done.
  - sys_simpl; try exit_contra; split; sys_done.
  - sys_simpl; split; sys_done.
  - sys_simpl; split; sys_done.
  - sys_simpl; split; sys_done.
  - split; sys_done.
Qed.

(** Goroutines are only ever added at the end of [tasks], and a goroutine
    keeps the [stale] mark it was launched with. *)
Lemma tasks_step id l s s' :
  step id l s = Some s' →
  length (tasks s) ≤ length (tasks s') ∧
  (∀ i t, tasks s !! i = Some t →
     ∃ t', tasks s' !! i = Some t' ∧ stale t' = stale t) ∧
  (∀ i t', length (tasks s) ≤ i → tasks s' !! i = Some t' →
     stale t' = ctxCanceled s ∧ calls t' = 0).
Proof.
  intros Hs. step_inv Hs.
  - assert (tasks (orPanic (set_ch rest event s)
                     (onEvent id event (set_ch rest event s))) = tasks s) as ->.
    { destruct (onEvent_outcome id event (set_ch rest event s)); sys_simpl; done. }
    split; [done|]. split; [eauto|]. intros i t' Hi Ht'.
    apply lookup_lt_Some in Ht'. lia.
  - assert (tasks (orPanic s (onChannelClosed s)) = tasks s) as ->.
    { sys_simpl; done. }
    split; [done|]. split; [eauto|]. intros i t' Hi Ht'.
    apply lookup_lt_Some in Ht'. lia.
  - unfold onElectionCheck. destruct (electionActive s); simpl.
    + split; [done|]. split; [eauto|]. intros i t' Hi Ht'.
      apply lookup_lt_Some in Ht'. lia.
    + rewrite length_app. simpl. split; [lia|]. split.
      * intros i t Hi. exists t. split; [|done].
        rewrite lookup_app_l; [done|]. by eapply lookup_lt_Some.
      * intros i t' Hi Ht'. rewrite lookup_app_r in Ht' by done.
        destruct (i - length (tasks s)) as [|n]; simpl in Ht'; [|done].
        by injection Ht' as <-.
  - assert (∃ t', tasks s' = <[i := t']> (tasks s) ∧ stale t' = stale t)
      as (t' & E & Est).
    { sys_simpl; eexists; split; done. }
    rewrite E, length_insert. split; [done|]. split.
    + intros j u Hj. destruct (decide (i = j)) as [->|Hne].
      * exists t'. rewrite list_lookup_insert_eq by (by eapply lookup_lt_Some).
        split; congruence.
      * exists u. by rewrite list_lookup_insert_ne.
    + intros j u Hj Hu. destruct (decide (i = j)) as [->|Hne].
      * apply lookup_lt_Some in Hi. lia.
      * rewrite list_lookup_insert_ne in Hu by done.
        apply lookup_lt_Some in Hu. lia.
  - assert (tasks s' = tasks s) as ->. { sys_simpl; done. }
    split; [done|]. split; [eauto|]. intros i t' Hi Ht'.
    apply lookup_lt_Some in Ht'. lia.
  - simpl. split; [done|]. split; [eauto|]. intros i t' Hi Ht'.
    apply lookup_lt_Some in Ht'. lia.
Qed.

(** A goroutine launched after the context was cancelled never calls
    StartServicesLeaderElection. *)
Lemma staleIdle_step id l s s' :
  wf s → Forall (staleIdle s) (tasks s) →
  step id l s = Some s' → Forall (staleIdle s') (tasks s').
Proof.
  intros W Hf Hs.
  destruct (canceled_step id l s s' (wf_nopanic _ W) (wf_exit _ W) Hs) as [_ Hc].
  assert (Hmono : ∀ t, staleIdle s t → tpc t = tpc t → staleIdle s' t).
  { intros t Ht _ Hst. destruct (Ht Hst) as (? & ? & ?). auto. }
  generalize Hs; intros Hs'. step_inv Hs.
  - assert (tasks (orPanic (set_ch rest event s)
                     (onEvent id event (set_ch rest event s))) = tasks s) as E.
    { destruct (onEvent_outcome id event (set_ch rest event s)); sys_simpl; done. }
    rewrite E. eapply Forall_impl; [done|]. intros; by apply Hmono.
  - assert (tasks (orPanic s (onChannelClosed s)) = tasks s) as E.
    { sys_simpl; done. }
    rewrite E. eapply Forall_impl; [done|]. intros; by apply Hmono.
  - unfold onElectionCheck in *. destruct (electionActive s); simpl in *.
    + eapply Forall_impl; [done|]. intros; by apply Hmono.
    + apply Forall_app. split.
      * eapply Forall_impl; [done|]. intros; by apply Hmono.
      * apply Forall_singleton. intros Hst. simpl in Hst.
        unfold ctxCanceled in *. simpl. done.
  - pose proof (Forall_lookup_1 _ _ _ _ Hf Hi) as Hti.
    assert (∃ t', tasks s' = <[i := t']> (tasks s) ∧ staleIdle s' t')
      as (t' & E & Ht').
    { unfold staleIdle in Hti |- *.
      destruct (stale t) eqn:Est.
      - destruct (Hti eq_refl) as (Hcc & Hcalls & Hleave).
        unfold leaving in Hleave.
        sys_simpl; eexists; (split; [done|]); simpl; intros _; done.
      - sys_simpl; eexists; (split; [done|]); simpl; intros; congruence. }
    rewrite E. apply Forall_insert; [|done].
    eapply Forall_impl; [done|]. intros; by apply Hmono.
  - assert (tasks s' = tasks s) as ->. { sys_simpl; done. }
    eapply Forall_impl; [done|]. intros; by apply Hmono.
  - simpl. eapply Forall_impl; [done|]. intros; by apply Hmono.
Qed.

Lemma staleIdle_reachable id svc events s :
  reachable id (initial svc events) s → Forall (staleIdle s) (tasks s).
Proof.
  induction 1 as [|s l s' Hr IH Hs]; [constructor|].
  eapply staleIdle_step; [|done..]. by eapply wf_reachable.
Qed.

(** ** The start-once invariant *)




(** ** After a cancellation *)

Lemma after_cancel id s1 s2 :
  wf s1 → Forall (staleIdle s1) (tasks s1) → ctxCanceled s1 = true →
  reachable id s1 s2 →
  wf s2 ∧ Forall (staleIdle s2) (tasks s2) ∧ ctxCanceled s2 = true ∧
  length (tasks s1) ≤ length (tasks s2) ∧
  ∀ i t, length (tasks s1) ≤ i → tasks s2 !! i = Some t → stale t = true.
Proof.
  intros W Hst Hc. induction 1 as [|s l s' Hr IH Hs].
  - do 4 (split; [done|]). intros i t Hi Ht. apply lookup_lt_Some in Ht. lia.
  - destruct IH as (W' & Hst' & Hc' & Hlen & Hnew).
    destruct (canceled_step id l s s' (wf_nopanic _ W') (wf_exit _ W') Hs) as [_ Hmono].
    destruct (tasks_step id l s s' Hs) as (Hlen' & Hold & Hfresh).
    split; [by eapply wf_step|]. split; [by eapply staleIdle_step|].
    split; [auto|]. split; [lia|].
    intros i t Hi Ht. destruct (decide (i < length (tasks s))) as [Hlt|Hge].
    + destruct (lookup_lt_is_Some_2 (tasks s) i Hlt) as [u Hu].
      destruct (Hold i u Hu) as (t' & Ht' & Est).
      rewrite Ht in Ht'. injection Ht' as <-. rewrite Est. by eapply Hnew.
    + destruct (Hfresh i t) as [-> _]; [lia | done | done].
Qed.

(** ** Facts about the annotation update *)

(** Lines 173-178 never write to a nil map. *)
Lemma withActiveEndpoint_spec endpoint currentService :
  withActiveEndpoint endpoint currentService
  = Some (set_Annotations
            (Some (<["kube-vip.io/active-endpoint" := endpoint]>
                     (default ∅ (Annotations currentService))))
            currentService).
Proof.
  unfold withActiveEndpoint, DeepCopy.
  destruct (Annotations currentService) eqn:E; simpl; by rewrite ?E.
Qed.

Lemma attempt_total api endpoint service n :
  ∃ err tl, attempt api endpoint service n
            = Some (err, CallGet (Namespace service) (Name service) :: tl).
Proof.
  unfold attempt.
  destruct (GetReply api n (Namespace service) (Name service)) as [cur|e];
    [|by eauto].
  rewrite withActiveEndpoint_spec. simpl.
  destruct (UpdateReply api n _ _); eauto.
Qed.

Lemma RetryOnConflict_spec steps (fn : nat → option (option APIError * list Call))
    n lastErr sent :
  (∀ m, is_Some (fn m)) → 0 < steps →
  ∃ k err,
    k < steps ∧
    RetryOnConflict steps fn n lastErr sent
    = Some (err, sent ++ (seq n (S k) ≫= λ m, default [] (snd <$> fn m))) ∧
    (∀ j, j < k → isConflictOutcome (fst <$> fn (n + j)) = true) ∧
    fst <$> fn (n + k) = Some err ∧
    (S k < steps → isConflictOutcome (fst <$> fn (n + k)) = false).
Proof.
  intros Htot. revert n lastErr sent.
  induction steps as [|steps IH]; intros n lastErr sent Hpos; [lia|].
  destruct (Htot n) as [[e reqs] Hn].
  assert (Hnow : ∀ err,
    fn n = Some (err, reqs) →
    (1 < S steps → isConflictOutcome (Some err) = false) →
    ∃ k err',
      k < S steps ∧
      Some (err, sent ++ reqs)
      = Some (err', sent ++ (seq n (S k) ≫= λ m, default [] (snd <$> fn m))) ∧
      (∀ j, j < k → isConflictOutcome (fst <$> fn (n + j)) = true) ∧
      fst <$> fn (n + k) = Some err' ∧
      (S k < S steps → isConflictOutcome (fst <$> fn (n + k)) = false)).
  { intros err Hn' Hc. exists 0, err. split; [lia|]. split.
    { simpl. rewrite Hn'. simpl. by rewrite app_nil_r. }
    split; [intros j Hj; lia|]. rewrite Nat.add_0_r, Hn'. simpl.
    split; [done|]. intros H1. by apply Hc. }
  assert (RetryOnConflict (S steps) fn n lastErr sent
          = match e with
            | None => Some (None, sent ++ reqs)
            | Some err =>
                if IsConflict err
                then RetryOnConflict steps fn (S n) (Some err) (sent ++ reqs)
                else Some (Some err, sent ++ reqs)
            end) as ->.
  { simpl. by rewrite Hn. }
  destruct e as [err|]; [|by apply Hnow].
  destruct (IsConflict err) eqn:Ec; [|apply Hnow; [done | by simpl]].
  destruct steps as [|steps'].
  { change (RetryOnConflict 0 fn (S n) (Some err) (sent ++ reqs))
      with (Some (Some err, sent ++ reqs)).
    apply Hnow; [done | lia]. }
  destruct (IH (S n) (Some err) (sent ++ reqs)) as (k & err' & Hk & Hr & Hbefore & Hlast & Hstop);
    [lia|].
  exists (S k), err'. split; [lia|]. split.
  { rewrite Hr. f_equal. f_equal. rewrite <- app_assoc. f_equal.
    change (seq n (S (S k))) with (n :: seq (S n) (S k)).
    rewrite bind_cons. rewrite Hn. reflexivity. }
  split.
  { intros [|j] Hj.
    - rewrite Nat.add_0_r, Hn. simpl. done.
    - replace (n + S j) with (S n + j) by lia. apply Hbefore. lia. }
  replace (n + S k) with (S n + k) by lia.
  split; [done|]. intros H1. apply Hstop. lia.
Qed.

(** ** The supervisor *)

Lemma supervised_initial svc events : supervised (initial svc events).
Proof. split; simpl; done. Qed.

Lemma open_while_running s :
  wf s → pc s = AtRange → exitFunction s = false.
Proof.
  intros W Hpc. destruct (exitFunction s) eqn:E; [|done].
  destruct (wf_exit _ W E) as [e He]. congruence.
Qed.

Lemma supervised_step id l s s' :
  wf s → supervised s → step id l s = Some s' → supervised s'.
Proof.
  intros W [S1 S2 S3 S4] Hs. step_inv Hs.
  - pose proof (open_while_running s W Hpc) as Hx.
    destruct (onEvent_outcome id event (set_ch rest event s)); sys_simpl;
      split; simpl; try done; try congruence; try (intros; by right).
  - pose proof (open_while_running s W Hpc) as Hx.
    sys_simpl; split; simpl; try done; try congruence; try (intros; by right).
  - sys_simpl; split; simpl; try done; congruence.
  - sys_simpl; split; simpl; try done; congruence.
  - sys_simpl; split; simpl; try done; try congruence.
    all: intros _;
      first [ match goal with H : _ || _ = true |- _ =>
                apply orb_true_iff in H; destruct H; auto end
            | apply S3; congruence ].
  - split; simpl; try done. intros H. destruct (S3 H); auto.
Qed.

Lemma supervised_reachable id svc events s :
  reachable id (initial svc events) s → supervised s.
Proof.
  induction 1 as [|s l s' Hr IH Hs]; [apply supervised_initial|].
  eapply supervised_step; [|done..]. by eapply wf_reachable.
Qed.

(** ** The election goroutine, step by step *)







(** Lines 161-192 in full: what an attempt sends and returns, by the
    replies of the API server. *)
Lemma attempt_spec api endpoint service n :
  attempt api endpoint service n
  = Some
      match GetReply api n (Namespace service) (Name service) with
      | inr err => (Some err, [CallGet (Namespace service) (Name service)])
      | inl currentService =>
          let currentServiceCopy :=
            {| Name := Name currentService;
               Namespace := Namespace currentService;
               Annotations :=
                 Some (<["kube-vip.io/active-endpoint" := endpoint]>
                         (default ∅ (Annotations currentService))) |} in
          (UpdateReply api n (Namespace currentService) currentServiceCopy,
           [CallGet (Namespace service) (Name service);
            CallUpdate (Namespace currentService) currentServiceCopy])
      end.
Proof.
  unfold attempt.
  destruct (GetReply api n (Namespace service) (Name service)) as [cur|e];
    [|done].
  rewrite withActiveEndpoint_spec. simpl. unfold set_Annotations.
  by destruct (UpdateReply api n _ _).
Qed.

(** * The claims *)

Lemma hostedOn_iff nodeID a : hostedOn nodeID a = true ↔ NodeName a = Some nodeID.
Proof.
  unfold hostedOn. destruct (NodeName a) as [n|]; [|done].
  rewrite String.eqb_eq. split; congruence.
Qed.

(** C5: for every endpoint snapshot and node identifier the scan of lines
    75-86 returns (it never fails: no index is out of range and the nil
    check guards the dereference of the node name) exactly the addresses
    whose hosting node is present and equal to the node identifier, in the
    order of the snapshot; its result depends on nothing else. *)
Theorem C5_resolver_exact (snapshot : Endpoints) (nodeID : string) :
  localEndpoints nodeID snapshot = Some (resolve snapshot nodeID) ∧
  resolve snapshot nodeID
    = IP <$> filter (λ a, NodeName a = Some nodeID) (Subsets snapshot ≫= Addresses) ∧
  ∀ ip, ip ∈ resolve snapshot nodeID ↔
        ∃ a, a ∈ Subsets snapshot ≫= Addresses ∧ NodeName a = Some nodeID ∧ IP a = ip.
Proof.
  split; [apply localEndpoints_resolve|]. unfold resolve.
  assert (E : filter (λ a, hostedOn nodeID a = true) (Subsets snapshot ≫= Addresses)
            = filter (λ a, NodeName a = Some nodeID) (Subsets snapshot ≫= Addresses)).
  { apply list_filter_iff. intros a. apply hostedOn_iff. }
  rewrite E. split; [done|]. intros ip.
  rewrite list_elem_of_fmap. split.
  - intros (a & -> & Ha). apply list_elem_of_filter in Ha as [Hn Ha]. eauto.
  - intros (a & Ha & Hn & <-). exists a. split; [done|].
    apply list_elem_of_filter. done.
Qed.

(** C3: an Added or Modified event whose resolved local-address set is
    empty, while lastKnownGoodEndpoint is set, cancels the context of the
    election and leaves lastKnownGoodEndpoint unset, changing nothing else;
    when lastKnownGoodEndpoint is unset too, the event changes no state. *)
Theorem C3_idle_on_empty (id : string) (event : Event) (ep : Endpoints) (s : Sys) :
  EvType event = Added ∨ EvType event = Modified →
  EvObject event = EndpointsObject ep →
  resolve ep id = [] →
  ∃ s', onEvent id event s = Some s' ∧
    (lastKnownGoodEndpoint s ≠ "" →
       lastKnownGoodEndpoint s' = "" ∧ ctxCanceled s' = true ∧
       s' = cancel (set_lastKnownGoodEndpoint "" s)) ∧
    (lastKnownGoodEndpoint s = "" → s' = s).
Proof.
  intros Ht Ho R. rewrite (onEvent_snapshot id event ep s Ht Ho).
  rewrite (onEndpoints_empty id ep s R). eexists. split; [done|]. split.
  - intros Hlk. apply String.eqb_neq in Hlk. rewrite Hlk.
    split; [|split; [apply ctxCanceled_cancel | done]].
    unfold cancel. by destruct (ctxCanceled _).
  - intros Hlk. by rewrite Hlk.
Qed.

Lemma C3_idle_on_empty_witness :
  ∃ s', onEvent "node-1" scenarioC
          (set_lastKnownGoodEndpoint "10.0.0.5" (initial plainService [])) = Some s' ∧
    ("10.0.0.5" ≠ "" →
       lastKnownGoodEndpoint s' = "" ∧ ctxCanceled s' = true ∧
       s' = cancel (set_lastKnownGoodEndpoint ""
                      (set_lastKnownGoodEndpoint "10.0.0.5" (initial plainService [])))) ∧
    ("10.0.0.5" = "" →
       s' = set_lastKnownGoodEndpoint "10.0.0.5" (initial plainService [])).
Proof.
  apply (C3_idle_on_empty "node-1" scenarioC
           {| Subsets := [{| Addresses := [address "10.0.0.9" "node-2"] |}] |}
           (set_lastKnownGoodEndpoint "10.0.0.5" (initial plainService [])));
    [by right | reflexivity | reflexivity].
Defined.

(** C8: when an Added or Modified event records the first resolved address
    into lastKnownGoodEndpoint (it was unset, the resolved set is not
    empty), the service's annotation kube-vip.io/active-endpoint is set to
    that address if its annotation kube-vip.io/egress is "true"; if that
    annotation is absent or different, the service is left as it was. *)
Theorem C8_stage_active_endpoint (id : string) (event : Event) (ep : Endpoints)
    (s : Sys) (first : string) (rest : list string) :
  EvType event = Added ∨ EvType event = Modified →
  EvObject event = EndpointsObject ep →
  resolve ep id = first :: rest →
  lastKnownGoodEndpoint s = "" →
  ∃ s', onEvent id event s = Some s' ∧
    lastKnownGoodEndpoint s' = first ∧ pc s' = AtElectionCheck ∧
    (annotation_get (Annotations (service s)) "kube-vip.io/egress" = "true" →
       ∃ g, Annotations (service s) = Some g ∧
            Annotations (service s')
              = Some (<["kube-vip.io/active-endpoint" := first]> g) ∧
            Name (service s') = Name (service s) ∧
            Namespace (service s') = Namespace (service s)) ∧
    (annotation_get (Annotations (service s)) "kube-vip.io/egress" ≠ "true" →
       service s' = service s).
Proof.
  intros Ht Ho R Hlk. rewrite (onEvent_snapshot id event ep s Ht Ho).
  rewrite (onEndpoints_first id ep s first rest R Hlk).
  eexists. split; [done|]. unfold staged. simpl.
  destruct (String.eqb_spec (annotation_get (Annotations (service s)) "kube-vip.io/egress") "true")
    as [E|E]; simpl.
  - split; [done|]. split; [done|]. split; [|done]. intros _.
    destruct (annotation_get_true_Some _ _ E) as [g Hg]. exists g.
    rewrite Hg. done.
  - split; [done|]. split; [done|]. split; [done|]. done.
Qed.

Lemma C8_stage_active_endpoint_witness :
  ∃ s', onEvent "node-1" scenarioA (initial egressService []) = Some s' ∧
    lastKnownGoodEndpoint s' = "10.0.0.5" ∧ pc s' = AtElectionCheck ∧
    (annotation_get (Annotations egressService) "kube-vip.io/egress" = "true" →
       ∃ g, Annotations egressService = Some g ∧
            Annotations (service s')
              = Some (<["kube-vip.io/active-endpoint" := "10.0.0.5"]> g) ∧
            Name (service s') = Name egressService ∧
            Namespace (service s') = Namespace egressService) ∧
    (annotation_get (Annotations egressService) "kube-vip.io/egress" ≠ "true" →
       service s' = egressService).
Proof.
  apply (C8_stage_active_endpoint "node-1" scenarioA
           {| Subsets := [{| Addresses := [address "10.0.0.5" "node-1"] |}] |}
           (initial egressService []) "10.0.0.5" []);
    [by left | reflexivity | reflexivity | reflexivity].
Defined.



(** C6 (what the code does where the claim fails): an Added or Modified
    event whose object is not an endpoint snapshot makes the controller
    cancel the context of the election and return a non-nil error, and no
    later event is taken from the channel; but exitFunction is not closed
    on this path, so, unless a shutdown is signalled, the supervising
    goroutine stays in its select and the watcher is never stopped.  The
    loop returns an error in no other case (a shutdown, a closed channel
    and a Deleted event all return nil). *)
Theorem C6_decode_error_leaves_watcher_running (id : string) (svc : Service)
    (events : list Event) :
  (∀ s event rest,
     reachable id (initial svc events) s →
     pc s = AtRange → ch s = event :: rest →
     EvType event = Added ∨ EvType event = Modified →
     asEndpoints (EvObject event) = None →
     ∃ s', step id Recv s = Some s' ∧
       pc s' = Returned (Some parseError) ∧ ctxCanceled s' = true ∧
       exitFunction s' = false ∧
       ∀ s'', reachable id s' s'' →
         pc s'' = Returned (Some parseError) ∧ ch s'' = rest ∧
         seen s'' = seen s ++ [event] ∧
         exitFunction s'' = false ∧
         (shutdownChan s'' = false →
          rwStopped s'' = false ∧ sup s'' = AtSelect ∧
          step id SupStep s'' = None)) ∧
  (∀ s err,
     reachable id (initial svc events) s → pc s = Returned (Some err) →
     err = parseError ∧
     ∃ pre event, seen s = pre ++ [event] ∧
       (EvType event = Added ∨ EvType event = Modified) ∧
       asEndpoints (EvObject event) = None).
Proof.
  split.
  - intros s event rest Hr Hpc Hch Ht Ho.
    pose proof (open_while_running s (wf_reachable _ _ _ _ Hr) Hpc) as Hx.
    assert (Hs : step id Recv s
                 = Some (returnWith (Some parseError) (cancel (set_ch rest event s)))).
    { simpl. rewrite Hpc, Hch. unfold onEvent.
      destruct Ht as [-> | ->]; rewrite Ho; reflexivity. }
    pose proof (reachable_step _ _ _ _ _ Hr Hs) as Hr1.
    eexists. split; [exact Hs|].
    split; [by sys_simpl|]. split; [apply ctxCanceled_cancel|].
    split; [by sys_simpl|].
    intros s'' Hr'.
    pose proof (supervised_reachable _ _ _ _ (reachable_trans _ _ _ _ Hr1 Hr'))
      as [_ S2 S3 S4].
    eapply returned_reachable in Hr' as (Hp & ? & ? & ? & ?); [|by sys_simpl].
    pose proof (S2 _ Hp) as Hx''.
    split; [done|]. split; [by sys_simpl|]. split; [by sys_simpl|].
    split; [done|]. intros Hsh.
    assert (Hsup : sup s'' = AtSelect).
    { destruct (sup s'') eqn:E; [done | |];
        (destruct S3 as [?|?]; [done | congruence | congruence]). }
    split.
    { destruct (rwStopped s'') eqn:E; [|done]. by destruct (S4 eq_refl). }
    split; [done|]. unfold step, supStep. by rewrite Hsup, Hsh, Hx''.
  - intros s err Hr Hpc. by apply (wf_error _ (wf_reachable _ _ _ _ Hr)).
Qed.

Lemma C6_decode_error_leaves_watcher_running_witness :
  (∃ s', step "node-1" Recv (initial plainService [scenarioMalformed; scenarioA]) = Some s' ∧
     pc s' = Returned (Some parseError) ∧ ctxCanceled s' = true ∧
     exitFunction s' = false ∧
     ∀ s'', reachable "node-1" s' s'' →
       pc s'' = Returned (Some parseError) ∧ ch s'' = [scenarioA] ∧
       seen s'' = [] ++ [scenarioMalformed] ∧
       exitFunction s'' = false ∧
       (shutdownChan s'' = false →
        rwStopped s'' = false ∧ sup s'' = AtSelect ∧
        step "node-1" SupStep s'' = None)) ∧
  (∃ s, exec "node-1" [Recv; Shutdown]
          (initial plainService [scenarioMalformed; scenarioA]) = Some s ∧
     parseError = parseError ∧
     ∃ pre event, seen s = pre ++ [event] ∧
       (EvType event = Added ∨ EvType event = Modified) ∧
       asEndpoints (EvObject event) = None).
Proof.
  split.
  - apply (proj1 (C6_decode_error_leaves_watcher_running "node-1" plainService
                    [scenarioMalformed; scenarioA])
             (initial plainService [scenarioMalformed; scenarioA])
             scenarioMalformed [scenarioA]);
      [apply reachable_refl | reflexivity | reflexivity | by left | reflexivity].
  - eexists. split; [cbv; reflexivity|].
    apply (proj2 (C6_decode_error_leaves_watcher_running "node-1" plainService
                    [scenarioMalformed; scenarioA]) _ parseError).
    + apply (exec_reachable "node-1" [Recv; Shutdown]). cbv; reflexivity.
    + reflexivity.
Defined.





(** C1 (what the code does where the claim fails): when the tracked address
    is missing from a later, non-empty resolved set, the controller cancels
    the context but keeps lastKnownGoodEndpoint as it was; and from then
    on the context of line 24 is still the only one: it stays cancelled,
    every call of StartServicesLeaderElection is handed that context, and
    a goroutine launched afterwards never calls StartServicesLeaderElection.
    No election is started again, under no fresh context. *)
Theorem C1_loss_keeps_address_and_context (id : string) (svc : Service)
    (events : list Event) (s : Sys) (event : Event) (rest : list Event)
    (ep : Endpoints) :
  reachable id (initial svc events) s →
  pc s = AtRange → ch s = event :: rest →
  EvType event = Added ∨ EvType event = Modified →
  EvObject event = EndpointsObject ep →
  resolve ep id ≠ [] →
  lastKnownGoodEndpoint s ≠ "" →
  lastKnownGoodEndpoint s ∉ resolve ep id →
  ∃ s1, step id Recv s = Some s1 ∧
    pc s1 = AtElectionCheck ∧
    lastKnownGoodEndpoint s1 = lastKnownGoodEndpoint s ∧
    ctxCanceled s1 = true ∧
    ∀ s2, reachable id s1 s2 →
      endpointContext s2 = 0 ∧ ctxCanceled s2 = true ∧
      Forall (λ c, c = 0) (elections s2) ∧
      ∀ i t, length (tasks s1) ≤ i → tasks s2 !! i = Some t →
             stale t = true ∧ calls t = 0.
Proof.
  intros Hr Hpc Hch Ht Ho Hne Hlk Hlost.
  assert (Hs : step id Recv s
               = Some (set_pc AtElectionCheck (cancel (set_ch rest event s)))).
  { simpl. rewrite Hpc, Hch.
    rewrite (onEvent_snapshot id event ep _ Ht Ho).
    rewrite onEndpoints_tracked by done. simpl.
    by rewrite bool_decide_eq_false_2. }
  eexists. split; [exact Hs|].
  destruct (cancel_frame (set_ch rest event s)) as (_ & _ & _ & _ & _ & _ & El).
  split; [done|]. split; [by simpl|].
  assert (Hc : ctxCanceled (set_pc AtElectionCheck (cancel (set_ch rest event s))) = true).
  { apply (ctxCanceled_cancel (set_ch rest event s)). }
  split; [done|]. intros s2 Hr2.
  pose proof (reachable_step _ _ _ _ _ Hr Hs) as Hr1.
  destruct (after_cancel id _ s2 (wf_reachable _ _ _ _ Hr1)
              (staleIdle_reachable _ _ _ _ Hr1) Hc Hr2)
    as (W2 & Hst2 & Hc2 & _ & Hnew).
  split; [apply (wf_ctx _ W2)|]. split; [done|].
  split; [apply (wf_elections _ W2)|].
  intros i t Hi Hti. pose proof (Hnew i t Hi Hti) as Hstale.
  split; [done|].
  by destruct (Forall_lookup_1 _ _ _ _ Hst2 Hti Hstale) as (_ & ? & _).
Qed.

Lemma C1_loss_keeps_address_and_context_witness :
  ∃ s, exec "node-1" [Recv; ElectionCheck; TaskStep 0; TaskStep 0; TaskStep 0]
         (initial plainService [scenarioA; scenarioMoved; scenarioMoved]) = Some s ∧
    ∃ s1, step "node-1" Recv s = Some s1 ∧
      pc s1 = AtElectionCheck ∧
      lastKnownGoodEndpoint s1 = lastKnownGoodEndpoint s ∧
      ctxCanceled s1 = true ∧
      ∀ s2, reachable "node-1" s1 s2 →
        endpointContext s2 = 0 ∧ ctxCanceled s2 = true ∧
        Forall (λ c, c = 0) (elections s2) ∧
        ∀ i t, length (tasks s1) ≤ i → tasks s2 !! i = Some t →
               stale t = true ∧ calls t = 0.
Proof.
  eexists. split; [cbv; reflexivity|].
  apply (C1_loss_keeps_address_and_context "node-1" plainService
           [scenarioA; scenarioMoved; scenarioMoved] _
           scenarioMoved [scenarioMoved]
           {| Subsets := [{| Addresses := [address "10.0.0.6" "node-1"] |}] |}).
  - apply (exec_reachable "node-1"
             [Recv; ElectionCheck; TaskStep 0; TaskStep 0; TaskStep 0]).
    cbv; reflexivity.
  - reflexivity.
  - reflexivity.
  - by right.
  - reflexivity.
  - discriminate.
  - discriminate.
  - intros H%list_elem_of_singleton. discriminate.
Defined.

(** C9 (the code departs from the claim): two schedules of the events
    A (scenario A), C (scenario C), A.  In the first the goroutine launched
    for the first event has read the context but not yet set the flag when
    the controller, having cancelled the context, reads the flag and launches
    a second goroutine; the first then calls StartServicesLeaderElection:
    two election goroutines are live at once.  In the second the controller
    has cancelled the context and is waiting for the next event while the
    goroutine is still inside StartServicesLeaderElection: the stop did not
    wait for it. *)
Theorem C9_two_live_tasks_and_unawaited_stop :
  (∃ s, exec "node-1"
          [Recv; ElectionCheck; TaskStep 0; Recv; Recv; ElectionCheck;
           TaskStep 0; TaskStep 0]
          (initial plainService [scenarioA; scenarioC; scenarioA]) = Some s ∧
     tasks s = [ {| tpc := InElection; calls := 1; stale := false |};
                 {| tpc := AtCtxErr; calls := 0; stale := true |} ] ∧
     length (liveTasks s) = 2) ∧
  (∃ s, exec "node-1"
          [Recv; ElectionCheck; TaskStep 0; TaskStep 0; TaskStep 0; Recv]
          (initial plainService [scenarioA; scenarioC]) = Some s ∧
     pc s = AtRange ∧ ch s = [] ∧ lastKnownGoodEndpoint s = "" ∧
     ctxCanceled s = true ∧
     tasks s = [ {| tpc := InElection; calls := 1; stale := false |} ]).
Proof.
  split; eexists; (split; [cbv; reflexivity|]); repeat split; reflexivity.
Qed.

(** C7: updateServiceEndpointAnnotation runs attempts 0 to k of its
    read-modify-write, for some k below the number of attempts of the retry
    policy.  Every attempt fetches the stored service anew; if the fetch
    fails that error is the attempt's outcome and nothing is written;
    otherwise the attempt sends one update, of the fetched service with the
    key kube-vip.io/active-endpoint set to the endpoint and all else as
    fetched, and its outcome is the server's reply.  Every attempt before
    the last one failed with a conflict error (nothing else is retried); the
    result is the outcome of the last attempt: nil when it succeeded, its
    error when it failed; and when the attempts stopped short of the
    policy's number, the last outcome was not a conflict (a success or
    another failure ends the run at once), so a conflict error is returned
    only once the attempts are exhausted. *)
Theorem C7_retry_only_on_conflict (DefaultRetry : nat) (api : APIServer)
    (endpoint : string) (service : Service) :
  0 < DefaultRetry →
  ∃ k err,
    k < DefaultRetry ∧
    updateServiceEndpointAnnotation DefaultRetry api endpoint service
      = Some (err, seq 0 (S k) ≫= requests api endpoint service) ∧
    (∀ j,
       match GetReply api j (Namespace service) (Name service) with
       | inr failure =>
           requests api endpoint service j
             = [CallGet (Namespace service) (Name service)] ∧
           outcome api endpoint service j = Some (Some failure)
       | inl currentService =>
           let currentServiceCopy :=
             {| Name := Name currentService;
                Namespace := Namespace currentService;
                Annotations :=
                  Some (<["kube-vip.io/active-endpoint" := endpoint]>
                          (default ∅ (Annotations currentService))) |} in
           requests api endpoint service j
             = [CallGet (Namespace service) (Name service);
                CallUpdate (Namespace currentService) currentServiceCopy] ∧
           outcome api endpoint service j
             = Some (UpdateReply api j (Namespace currentService)
                       currentServiceCopy)
       end) ∧
    (∀ j, j < k → isConflictOutcome (outcome api endpoint service j) = true) ∧
    outcome api endpoint service k = Some err ∧
    (S k < DefaultRetry →
     isConflictOutcome (outcome api endpoint service k) = false).
Proof.
  intros Hpos.
  destruct (RetryOnConflict_spec DefaultRetry (attempt api endpoint service)
              0 None [] ) as (k & err & Hk & Hr & Hbefore & Hlast & Hstop).
  { intros m. destruct (attempt_total api endpoint service m) as (e & tl & ->).
    by eexists. }
  { done. }
  exists k, err. split; [done|]. split.
  { unfold updateServiceEndpointAnnotation. rewrite Hr. simpl. by destruct err. }
  split; [|done].
  intros j. unfold requests, outcome. rewrite attempt_spec.
  by destruct (GetReply api j (Namespace service) (Name service)).
Qed.

Lemma C7_retry_only_on_conflict_witness :
  ∃ k err,
    k < 5 ∧
    updateServiceEndpointAnnotation 5 conflictingTwice "10.0.0.5" plainService
      = Some (err, seq 0 (S k) ≫= requests conflictingTwice "10.0.0.5" plainService) ∧
    (∀ j,
       match GetReply conflictingTwice j (Namespace plainService) (Name plainService) with
       | inr failure =>
           requests conflictingTwice "10.0.0.5" plainService j
             = [CallGet (Namespace plainService) (Name plainService)] ∧
           outcome conflictingTwice "10.0.0.5" plainService j = Some (Some failure)
       | inl currentService =>
           let currentServiceCopy :=
             {| Name := Name currentService;
                Namespace := Namespace currentService;
                Annotations :=
                  Some (<["kube-vip.io/active-endpoint" := "10.0.0.5"]>
                          (default ∅ (Annotations currentService))) |} in
           requests conflictingTwice "10.0.0.5" plainService j
             = [CallGet (Namespace plainService) (Name plainService);
                CallUpdate (Namespace currentService) currentServiceCopy] ∧
           outcome conflictingTwice "10.0.0.5" plainService j
             = Some (UpdateReply conflictingTwice j (Namespace currentService)
                       currentServiceCopy)
       end) ∧
    (∀ j, j < k →
       isConflictOutcome (outcome conflictingTwice "10.0.0.5" plainService j) = true) ∧
    outcome conflictingTwice "10.0.0.5" plainService k = Some err ∧
    (S k < 5 →
     isConflictOutcome (outcome conflictingTwice "10.0.0.5" plainService k) = false).
Proof.
  apply (C7_retry_only_on_conflict 5 conflictingTwice "10.0.0.5" plainService).
  lia.
Defined.

(** C10: when the freshly fetched service has no annotation map, the copy
    gets an empty map before the key kube-vip.io/active-endpoint is written,
    so the object sent to the API server carries exactly that key with the
    endpoint, and the function returns nil once the server accepts it; for
    no stored service at all does the write hit a nil map. *)
Theorem C10_nil_annotations_initialised (DefaultRetry : nat) (api : APIServer)
    (endpoint : string) (service currentService : Service) :
  0 < DefaultRetry →
  GetReply api 0 (Namespace service) (Name service) = inl currentService →
  Annotations currentService = None →
  UpdateReply api 0 (Namespace currentService)
    (set_Annotations (Some {["kube-vip.io/active-endpoint" := endpoint]})
       currentService) = None →
  withActiveEndpoint endpoint currentService
    = Some (set_Annotations (Some {["kube-vip.io/active-endpoint" := endpoint]})
              currentService) ∧
  updateServiceEndpointAnnotation DefaultRetry api endpoint service
    = Some (None,
            [CallGet (Namespace service) (Name service);
             CallUpdate (Namespace currentService)
               (set_Annotations
                  (Some {["kube-vip.io/active-endpoint" := endpoint]})
                  currentService)]) ∧
  ∀ stored, is_Some (withActiveEndpoint endpoint stored).
Proof.
  intros Hpos Hget Hnil Hupd.
  assert (Hw : withActiveEndpoint endpoint currentService
               = Some (set_Annotations
                         (Some {["kube-vip.io/active-endpoint" := endpoint]})
                         currentService)).
  { rewrite withActiveEndpoint_spec, Hnil. simpl. by rewrite insert_empty. }
  split; [done|]. split.
  - destruct DefaultRetry as [|steps]; [lia|].
    unfold updateServiceEndpointAnnotation. simpl.
    unfold attempt. rewrite Hget, Hw. simpl. by rewrite Hupd.
  - intros stored. rewrite withActiveEndpoint_spec. by eexists.
Qed.

Lemma C10_nil_annotations_initialised_witness :
  withActiveEndpoint "10.0.0.5" plainService
    = Some (set_Annotations (Some {["kube-vip.io/active-endpoint" := "10.0.0.5"]})
              plainService) ∧
  updateServiceEndpointAnnotation 5 acceptingServer "10.0.0.5" plainService
    = Some (None,
            [CallGet (Namespace plainService) (Name plainService);
             CallUpdate (Namespace plainService)
               (set_Annotations
                  (Some {["kube-vip.io/active-endpoint" := "10.0.0.5"]})
                  plainService)]) ∧
  ∀ stored, is_Some (withActiveEndpoint "10.0.0.5" stored).
Proof.
  apply (C10_nil_annotations_initialised 5 acceptingServer "10.0.0.5"
           plainService plainService);
    [lia | reflexivity | reflexivity | reflexivity].
Defined.
